(** * HeroCarousel: the slide-advance timer and the transition state machine

    A shallow embedding of [src/components/HeroCarousel.tsx].  The component
    keeps seven [useState] cells; a repeating interval timer starts a
    transition and the entering slide's [onAnimationComplete] callback
    commits it.  The first part models the two callbacks as functions on the
    record of state cells; the module [Lifecycle] further down adds the
    interval table and the [useEffect] set-up / clean-up pair, so that the
    statements about the timer handle can be made. *)

From stdpp Require Import base option list gmap strings pretty.
From Stdlib Require Import ZArith Lia Ascii.

Local Open Scope Z_scope.

(** ** Module-level constants (lines 10-28) *)

Definition images : list string :=
  [ "/heroContainer/heroPic1.jpg";
    "/heroContainer/heroPic2.jpg";
    "/heroContainer/heroPic3.jpg" ]%string.

Definition SLIDE_DURATION : Z := 3000.

Definition projectNames : list string :=
  [ "Indian Beauty"; "Divine Culture"; "Modern kick" ]%string.

Definition navItems : list string :=
  [ "Overview"; "Projects"; "Categories"; "Motion" ]%string.

(** [images.length] *)
Definition images_length : Z := Z.of_nat (length images).

(** The JavaScript [%] operator on integral numbers: the remainder takes the
    sign of the dividend (truncated division), which is [Z.rem].  The divisor
    is [images.length], never zero here. *)
Definition js_rem (a b : Z) : Z := Z.rem a b.

(** ** The state cells (lines 36-49)

    One field per [useState] call, with the source's names.  Indices are
    JavaScript numbers that only ever hold integers, hence [Z]; the two
    nullable cells are options. *)

Record Carousel : Type := mkCarousel {
  current         : Z;
  direction       : Z;
  isTransitioning : bool;
  next            : option Z;
  displayedIndex  : Z;
  hoveredNav      : option Z;
  hoveredMe       : bool
}.

(** Initial values passed to [useState]. *)
Definition initial : Carousel :=
  {| current := 0; direction := 1; isTransitioning := false; next := None;
     displayedIndex := 0; hoveredNav := None; hoveredMe := false |}.

(** The setters returned by [useState]: each replaces one cell. *)

Definition setCurrent (v : Z) (s : Carousel) : Carousel :=
  {| current := v; direction := direction s;
     isTransitioning := isTransitioning s; next := next s;
     displayedIndex := displayedIndex s; hoveredNav := hoveredNav s;
     hoveredMe := hoveredMe s |}.

Definition setDirection (v : Z) (s : Carousel) : Carousel :=
  {| current := current s; direction := v;
     isTransitioning := isTransitioning s; next := next s;
     displayedIndex := displayedIndex s; hoveredNav := hoveredNav s;
     hoveredMe := hoveredMe s |}.

Definition setIsTransitioning (v : bool) (s : Carousel) : Carousel :=
  {| current := current s; direction := direction s;
     isTransitioning := v; next := next s;
     displayedIndex := displayedIndex s; hoveredNav := hoveredNav s;
     hoveredMe := hoveredMe s |}.

Definition setNext (v : option Z) (s : Carousel) : Carousel :=
  {| current := current s; direction := direction s;
     isTransitioning := isTransitioning s; next := v;
     displayedIndex := displayedIndex s; hoveredNav := hoveredNav s;
     hoveredMe := hoveredMe s |}.

Definition setDisplayedIndex (v : Z) (s : Carousel) : Carousel :=
  {| current := current s; direction := direction s;
     isTransitioning := isTransitioning s; next := next s;
     displayedIndex := v; hoveredNav := hoveredNav s;
     hoveredMe := hoveredMe s |}.

Definition setHoveredNav (v : option Z) (s : Carousel) : Carousel :=
  {| current := current s; direction := direction s;
     isTransitioning := isTransitioning s; next := next s;
     displayedIndex := displayedIndex s; hoveredNav := v;
     hoveredMe := hoveredMe s |}.

Definition setHoveredMe (v : bool) (s : Carousel) : Carousel :=
  {| current := current s; direction := direction s;
     isTransitioning := isTransitioning s; next := next s;
     displayedIndex := displayedIndex s; hoveredNav := hoveredNav s;
     hoveredMe := v |}.

(** ** The interval callback (lines 53-58)

    The arrow function handed to [setInterval] closes over the [current] of
    the render that ran the effect; [cur] is that captured value.  The four
    setter calls are batched into one update of the cells. *)

Definition advance (cur : Z) (s : Carousel) : Carousel :=
  let s1 := setDirection 1 s in
  let s2 := setNext (Some (js_rem (cur + 1) images_length)) s1 in
  let s3 := setIsTransitioning true s2 in
  setDisplayedIndex (js_rem (cur + 1) images_length) s3.

(** A scheduler tick.  The effect lists [current] as its only dependency, so
    the live interval always holds the [current] of the latest render (see
    [LifecycleFacts.timer_never_stale]). *)
Definition tick (s : Carousel) : Carousel := advance (current s) s.

(** ** The completion handler (lines 63-70) *)

Definition handleAnimationComplete (s : Carousel) : Carousel :=
  match next s with
  | Some n =>
      let s1 := setCurrent n s in
      let s2 := setNext None s1 in
      let s3 := setIsTransitioning false s2 in
      setDisplayedIndex n s3
  | None => s
  end.

(** ** Hover handlers (lines 135-136 and 198-199) *)

Inductive Hover : Type :=
| NavEnter (idx : Z)   (* onMouseEnter of nav item [idx] *)
| NavLeave             (* onMouseLeave of a nav item *)
| MeEnter              (* onMouseEnter of the 'More about ME' label *)
| MeLeave.             (* onMouseLeave of the 'More about ME' label *)

Definition hover (h : Hover) (s : Carousel) : Carousel :=
  match h with
  | NavEnter idx => setHoveredNav (Some idx) s
  | NavLeave     => setHoveredNav None s
  | MeEnter      => setHoveredMe true s
  | MeLeave      => setHoveredMe false s
  end.

(** ** Runs of the state machine *)

(** One transition with no overlap: a tick, then the completion of the
    animation it started. *)
Definition round (s : Carousel) : Carousel := handleAnimationComplete (tick s).

(** The state after [k] such rounds. *)
Fixpoint rounds (k : nat) (s : Carousel) : Carousel :=
  match k with
  | O => s
  | S k' => round (rounds k' s)
  end.

(** States reachable from the initial one by ticks and completion calls, in
    any order (overlapping ticks and spurious completions included). *)
Inductive reachable : Carousel -> Prop :=
| reach_initial : reachable initial
| reach_tick s : reachable s -> reachable (tick s)
| reach_complete s : reachable s -> reachable (handleAnimationComplete s).

(** The shape every reachable state has: [current] is a slide index and
    the other carousel cells are either at rest or describe the one pending
    transition to the following slide. *)
Definition well_formed (s : Carousel) : Prop :=
  0 <= current s < images_length /\
  match next s with
  | Some n =>
      isTransitioning s = true
      /\ n = (current s + 1) mod images_length
      /\ displayedIndex s = n
  | None =>
      isTransitioning s = false /\ displayedIndex s = current s
  end.

(** ** The timer effect and the component's life cycle (lines 52-60)

    [setInterval] and [clearInterval] act on the host's table of live
    intervals.  The table maps a handle to the callback registered under it;
    the callback of this component is [advance cur] for the [cur] it closed
    over, so the table stores that captured value.  The effect's clean-up
    closure [() => clearInterval(timer)] is represented by the handle it
    closed over.

    The surrounding protocol is the one [useEffect] documents: the effect
    runs after the first render; after a render in which a dependency
    changed, the previous clean-up runs and the effect runs again; on
    unmount the clean-up runs.  A render and the effect work it causes are
    taken as one step. *)

Module Lifecycle.

Record World : Type := mkWorld {
  cells       : Carousel;      (* the useState cells *)
  mounted     : bool;          (* is the view still on screen *)
  intervals   : gmap nat Z;    (* live interval handle -> captured [current] *)
  next_handle : nat;           (* next handle [setInterval] hands out *)
  cleanup     : option nat     (* handle held by the pending clean-up *)
}.

(** [setInterval(callback, SLIDE_DURATION)]: registers the callback under
    a fresh handle and returns the handle. *)
Definition setInterval (cur : Z) (w : World) : nat * World :=
  (next_handle w,
   {| cells := cells w; mounted := mounted w;
      intervals := <[next_handle w := cur]> (intervals w);
      next_handle := S (next_handle w);
      cleanup := cleanup w |}).

(** [clearInterval(timer)]: the handle is dropped from the table; an
    unknown handle is ignored. *)
Definition clearInterval (timer : nat) (w : World) : World :=
  {| cells := cells w; mounted := mounted w;
     intervals := delete timer (intervals w);
     next_handle := next_handle w;
     cleanup := cleanup w |}.

(** The body of the effect: arm the interval with the [current] of this
    render and hand back the clean-up that clears it. *)
Definition effect (w : World) : World :=
  let '(timer, w1) := setInterval (current (cells w)) w in
  {| cells := cells w1; mounted := mounted w1;
     intervals := intervals w1; next_handle := next_handle w1;
     cleanup := Some timer |}.

(** Running the clean-up the last effect returned, if there is one. *)
Definition run_cleanup (w : World) : World :=
  match cleanup w with
  | Some timer =>
      let w1 := clearInterval timer w in
      {| cells := cells w1; mounted := mounted w1;
         intervals := intervals w1; next_handle := next_handle w1;
         cleanup := None |}
  | None => w
  end.

(** First render with the initial cells, then the effect. *)
Definition mount : World :=
  effect {| cells := initial; mounted := true; intervals := ∅;
            next_handle := 1%nat; cleanup := None |}.

(** A render with new cells [s'].  The dependency array is [[current]]:
    the effect is torn down and run again exactly when [current] differs
    from the previous render's. *)
Definition render (s' : Carousel) (w : World) : World :=
  let w1 := {| cells := s'; mounted := mounted w;
               intervals := intervals w; next_handle := next_handle w;
               cleanup := cleanup w |} in
  if current s' =? current (cells w) then w1 else effect (run_cleanup w1).

(** Teardown: the clean-up runs and the view is gone. *)
Definition unmount (w : World) : World :=
  let w1 := run_cleanup w in
  {| cells := cells w1; mounted := false;
     intervals := intervals w1; next_handle := next_handle w1;
     cleanup := cleanup w1 |}.

(** What can happen to a component instance.  An interval fires whenever
    its handle is live, mounted or not: only [clearInterval] stops it.
    Animation and pointer callbacks belong to rendered elements, so the
    rendering layer delivers them to a mounted view only. *)
Inductive Event : Type :=
| Fire (timer : nat)     (* the interval registered under [timer] elapses *)
| Complete               (* the entering slide reports completion *)
| Pointer (h : Hover)    (* a mouse enter / leave *)
| Unmount.               (* the component is torn down *)

Definition step (e : Event) (w : World) : World :=
  match e with
  | Fire timer =>
      match intervals w !! timer with
      | Some cur => render (advance cur (cells w)) w
      | None => w
      end
  | Complete =>
      if mounted w then render (handleAnimationComplete (cells w)) w else w
  | Pointer h =>
      if mounted w then render (hover h (cells w)) w else w
  | Unmount =>
      if mounted w then unmount w else w
  end.

Fixpoint run (es : list Event) (w : World) : World :=
  match es with
  | [] => w
  | e :: es' => run es' (step e w)
  end.

(** The link between the pending clean-up, the interval table and the
    cells that every step preserves. *)
Definition consistent (w : World) : Prop :=
  match cleanup w with
  | Some timer =>
      intervals w = {[ timer := current (cells w) ]}
      /\ (timer < next_handle w)%nat /\ mounted w = true
  | None => intervals w = ∅ /\ mounted w = false
  end.

End Lifecycle.

(** ** What the render reads from the cells (lines 72-213)

    The JSX is markup; the parts below are the ones computed from the state
    cells.  Class names that only choose a typeface are left out. *)

(** [arr[i]] for an integral [i]: [undefined], here [None], outside the
    array. *)
Definition js_index {A : Type} (arr : list A) (i : Z) : option A :=
  if i <? 0 then None else arr !! Z.to_nat i.

(** [String(n)] and the interpolation of a number in a template literal:
    for an integer below 10^21 the decimal numeral, which is stdpp's
    [pretty] on [Z]. *)
Definition js_string_of (n : Z) : string := pretty n.

Fixpoint string_repeat (n : nat) (s : string) : string :=
  match n with
  | O => EmptyString
  | S n' => s +:+ string_repeat n' s
  end.

(** [str.padStart(targetLength, padString)]: the string itself when it is
    long enough or the filler is empty, else the filler repeated and cut to
    the missing length, put in front. *)
Definition padStart (targetLength : nat) (padString str : string) : string :=
  let stringLength := String.length str in
  if (targetLength <=? stringLength)%nat then str
  else match padString with
       | EmptyString => str
       | _ =>
           let fillLen := (targetLength - stringLength)%nat in
           String.substring 0 fillLen (string_repeat fillLen padString) +:+ str
       end.

(** [enterVariants.initial] (lines 74-77): where the entering slide starts,
    as the pair of [x] and [zIndex]. *)
Definition enterVariants_initial (direction : Z) : string * Z :=
  (if 0 <? direction then "100%"%string else "-100%"%string, 2).

(** The props of one [Image] element (lines 97-103 and 119-125). *)
Record HeroImage : Type := mkHeroImage {
  src : option string;
  alt : string
}.

Definition heroImage (i : Z) : HeroImage :=
  {| src := js_index images i;
     alt := "Hero Image " +:+ js_string_of (i + 1) |}.

(** The static layer (lines 96-104). *)
Definition staticImage (s : Carousel) : HeroImage := heroImage (current s).

(** The entering layer (lines 107-127): present when
    [isTransitioning && next !== null], keyed by [next], started from
    [enterVariants.initial(direction)]. *)
Record EnteringLayer : Type := mkEnteringLayer {
  key            : Z;
  custom         : Z;
  initialVariant : string * Z;
  enteringImage  : HeroImage
}.

Definition enteringLayer (s : Carousel) : option EnteringLayer :=
  if isTransitioning s then
    match next s with
    | Some n =>
        Some {| key := n; custom := direction s;
                initialVariant := enterVariants_initial (direction s);
                enteringImage := heroImage n |}
    | None => None
    end
  else None.

(** The numbered indicators (lines 159-171): class name and text of the
    [span] rendered for each entry of [images]. *)
Definition indicatorClassName (idx displayed : Z) : string :=
  "text-lg font-bold transition-all duration-300 " +:+
  (if idx =? displayed then "text-white opacity-100"
   else "text-white opacity-50").

Definition indicatorLabel (idx : Z) : string :=
  padStart 2 "0" (js_string_of (idx + 1)).

Definition indicators (s : Carousel) : list (string * string) :=
  imap (fun idx _ =>
          (indicatorClassName (Z.of_nat idx) (displayedIndex s),
           indicatorLabel (Z.of_nat idx)))
       images.

(** The class name of the indicator that stands out. *)
Definition indicatorHighlighted : string :=
  "text-lg font-bold transition-all duration-300 text-white opacity-100"%string.

(** The project name under the slide (line 180). *)
Definition projectName (s : Carousel) : option string :=
  js_index projectNames (displayedIndex s).

(** The dot in front of each navigation item (lines 131-143):
    [hoveredNav === idx] picks the visible class. *)
Definition isHoveredNav (s : Carousel) (idx : Z) : bool :=
  match hoveredNav s with
  | Some h => h =? idx
  | None => false
  end.

Definition navDotClassName (s : Carousel) (idx : Z) : string :=
  "h-2 w-2 rounded-full mr-6 transition-all duration-200 " +:+
  (if isHoveredNav s idx then "bg-white opacity-100" else "opacity-0").

Definition navDots (s : Carousel) : list (string * string) :=
  imap (fun idx item => (item, navDotClassName s (Z.of_nat idx))) navItems.

Definition navDotVisible : string :=
  "h-2 w-2 rounded-full mr-6 transition-all duration-200 bg-white opacity-100"%string.

(** How many entries of a rendered list carry a given class name. *)
Definition count_class {A : Type} (cls : string) (classOf : A -> string)
    (l : list A) : nat :=
  length (filter (fun x => classOf x = cls) l).

(** The events of [k] transitions without overlap, the first one started
    by the interval registered under [timer]: each round is that interval
    firing and the animation completing, and the next round belongs to the
    handle after it. *)
Fixpoint schedule (timer : nat) (k : nat) : list Lifecycle.Event :=
  match k with
  | O => []
  | S k' =>
      Lifecycle.Fire timer :: Lifecycle.Complete :: schedule (S timer) k'
  end.

(** * Properties of the transition state machine *)

(** ** Arithmetic of slide indices *)

Lemma images_length_eq : images_length = 3.
Proof. reflexivity. Qed.

(** On a non-negative dividend JavaScript's [%] is the mathematical [mod]. *)
Lemma js_rem_mod (a : Z) : 0 <= a -> js_rem a images_length = a mod images_length.
Proof.
  intros Ha. unfold js_rem. rewrite images_length_eq.
  apply Z.rem_mod_nonneg; lia.
Qed.

Lemma successor_in_range (c : Z) :
  0 <= (c + 1) mod images_length < images_length.
Proof. rewrite images_length_eq. apply Z.mod_pos_bound. lia. Qed.

(** With three slides the successor of a slide index is another slide. *)
Lemma successor_differs (c : Z) :
  0 <= c < images_length -> (c + 1) mod images_length <> c.
Proof.
  rewrite images_length_eq. intros Hc Heq.
  assert (Hcases : c = 0 \/ c = 1 \/ c = 2) by lia.
  destruct Hcases as [-> | [-> | ->]]; vm_compute in Heq; discriminate.
Qed.

(** ** What one callback does to the cells *)

Lemma advance_cells (cur : Z) (s : Carousel) :
  advance cur s =
  {| current := current s; direction := 1; isTransitioning := true;
     next := Some (js_rem (cur + 1) images_length);
     displayedIndex := js_rem (cur + 1) images_length;
     hoveredNav := hoveredNav s; hoveredMe := hoveredMe s |}.
Proof. reflexivity. Qed.

Lemma complete_some (s : Carousel) (n : Z) :
  next s = Some n ->
  handleAnimationComplete s =
  {| current := n; direction := direction s; isTransitioning := false;
     next := None; displayedIndex := n;
     hoveredNav := hoveredNav s; hoveredMe := hoveredMe s |}.
Proof. intros Hn. unfold handleAnimationComplete. rewrite Hn. reflexivity. Qed.

Lemma complete_none (s : Carousel) :
  next s = None -> handleAnimationComplete s = s.
Proof. intros Hn. unfold handleAnimationComplete. rewrite Hn. reflexivity. Qed.

(** C1. A scheduler tick, on every state, sets [direction] to forward (1,
    hence never -1), raises [isTransitioning], leaves [current] as it was,
    and sets [next] and [displayedIndex] to the same value
    [(current + 1) % images.length]; for a [current] that is a slide index
    (non-negative) that value is [(current + 1) mod N]. *)
Theorem tick_spec (s : Carousel) :
  direction (tick s) = 1
  /\ direction (tick s) <> -1
  /\ isTransitioning (tick s) = true
  /\ current (tick s) = current s
  /\ next (tick s) = Some (js_rem (current s + 1) images_length)
  /\ displayedIndex (tick s) = js_rem (current s + 1) images_length
  /\ (0 <= current s ->
      next (tick s) = Some ((current s + 1) mod images_length)
      /\ displayedIndex (tick s) = (current s + 1) mod images_length).
Proof.
  unfold tick. rewrite advance_cells.
  cbn [next direction isTransitioning displayedIndex current].
  repeat split; try lia.
  - rewrite js_rem_mod by lia. reflexivity.
  - rewrite js_rem_mod by lia. reflexivity.
Qed.

Lemma tick_spec_witness :
  0 <= current initial
  /\ next (tick initial) = Some 1
  /\ displayedIndex (tick initial) = 1.
Proof.
  split; [ exact (Z.le_refl 0) | ].
  exact (proj2 (proj2 (proj2 (proj2 (proj2 (proj2 (tick_spec initial))))))
           (Z.le_refl 0)).
Defined.

(** C2. When [next] holds an index, the completion handler commits it:
    [current] becomes that index, [next] is cleared, [isTransitioning] is
    lowered, and [displayedIndex] is the new [current]. *)
Theorem complete_commits (s : Carousel) (n : Z) :
  next s = Some n ->
  current (handleAnimationComplete s) = n
  /\ next (handleAnimationComplete s) = None
  /\ isTransitioning (handleAnimationComplete s) = false
  /\ displayedIndex (handleAnimationComplete s) = current (handleAnimationComplete s)
  /\ displayedIndex (handleAnimationComplete s) = n.
Proof.
  intros Hn. rewrite (complete_some s n Hn). repeat split.
Qed.

Lemma complete_commits_witness :
  next (tick initial) = Some 1
  /\ current (handleAnimationComplete (tick initial)) = 1
  /\ next (handleAnimationComplete (tick initial)) = None.
Proof.
  pose proof (complete_commits (tick initial) 1 eq_refl) as H.
  split; [ reflexivity | ].
  split; [ exact (proj1 H) | exact (proj1 (proj2 H)) ].
Defined.

(** ** Rounds without overlap *)

Lemma round_cells (s : Carousel) :
  round s =
  {| current := js_rem (current s + 1) images_length; direction := 1;
     isTransitioning := false; next := None;
     displayedIndex := js_rem (current s + 1) images_length;
     hoveredNav := hoveredNav s; hoveredMe := hoveredMe s |}.
Proof. reflexivity. Qed.

Example first_tick :
  tick initial =
  {| current := 0; direction := 1; isTransitioning := true; next := Some 1;
     displayedIndex := 1; hoveredNav := None; hoveredMe := false |}.
Proof. reflexivity. Qed.

Example first_completion :
  handleAnimationComplete (tick initial) =
  {| current := 1; direction := 1; isTransitioning := false; next := None;
     displayedIndex := 1; hoveredNav := None; hoveredMe := false |}.
Proof. reflexivity. Qed.

Example wraps_after_three : current (rounds 3 initial) = 0.
Proof. reflexivity. Qed.

(** C3. From the initial state, after [k] rounds of one tick followed by its
    completion, [current] is [k mod N] (and the carousel is at rest). *)
Theorem rounds_current (k : nat) :
  current (rounds k initial) = Z.of_nat k mod images_length
  /\ next (rounds k initial) = None
  /\ isTransitioning (rounds k initial) = false.
Proof.
  induction k as [| k IH].
  - repeat split.
  - destruct IH as [IHc _].
    cbn [rounds]. rewrite round_cells. cbn [current next isTransitioning].
    repeat split.
    rewrite IHc, js_rem_mod.
    + rewrite Nat2Z.inj_succ, images_length_eq.
      rewrite Z.add_mod_idemp_l by lia. reflexivity.
    + pose proof (Z.mod_pos_bound (Z.of_nat k) images_length) as Hb.
      rewrite images_length_eq in *. lia.
Qed.

(** ** The invariant of reachable states *)

Lemma initial_well_formed : well_formed initial.
Proof. unfold well_formed. cbn. rewrite images_length_eq. repeat split; lia. Qed.

Lemma tick_well_formed (s : Carousel) : well_formed s -> well_formed (tick s).
Proof.
  intros [Hc _]. unfold well_formed, tick. rewrite advance_cells.
  cbn [current next isTransitioning displayedIndex].
  rewrite js_rem_mod by lia. repeat split; lia.
Qed.

Lemma complete_well_formed (s : Carousel) :
  well_formed s -> well_formed (handleAnimationComplete s).
Proof.
  intros Hwf. destruct (next s) as [n |] eqn:Hn.
  - rewrite (complete_some s n Hn).
    destruct Hwf as [Hc Hrest]. rewrite Hn in Hrest.
    destruct Hrest as (_ & -> & _).
    unfold well_formed. cbn [current next isTransitioning displayedIndex].
    pose proof (successor_in_range (current s)). repeat split; lia.
  - rewrite (complete_none s Hn). exact Hwf.
Qed.

Lemma displayed_range_of_well_formed (s : Carousel) :
  well_formed s -> 0 <= displayedIndex s < images_length.
Proof.
  intros [Hc Hrest]. destruct (next s) as [n |].
  - destruct Hrest as (_ & Hn & ->). subst n. apply successor_in_range.
  - destruct Hrest as [_ ->]. exact Hc.
Qed.

Lemma reachable_well_formed (s : Carousel) : reachable s -> well_formed s.
Proof.
  induction 1 as [| s _ IH | s _ IH].
  - exact initial_well_formed.
  - exact (tick_well_formed s IH).
  - exact (complete_well_formed s IH).
Qed.

(** C4. In a reachable state [isTransitioning] is true exactly when [next]
    is not [None], and then [next] is a slide index in [0, N) other than
    [current]. *)
Theorem transitioning_iff_next (s : Carousel) :
  reachable s ->
  (isTransitioning s = true <-> next s <> None)
  /\ (isTransitioning s = true ->
      exists n, next s = Some n /\ 0 <= n < images_length /\ n <> current s).
Proof.
  intros Hreach.
  destruct (reachable_well_formed s Hreach) as [Hc Hrest].
  destruct (next s) as [n |].
  - destruct Hrest as (Ht & Hn & _). split.
    + split; [ discriminate | intros _; exact Ht ].
    + intros _. exists n. split; [ reflexivity | ]. subst n. split.
      * apply successor_in_range.
      * apply successor_differs, Hc.
  - destruct Hrest as [Ht _]. split.
    + split; [ congruence | intros Hne; now contradiction Hne ].
    + congruence.
Qed.

(** C5. In a reachable state [displayedIndex] is [next] while a transition
    is running and [current] while the carousel is at rest. *)
Theorem displayed_tracks_transition (s : Carousel) :
  reachable s ->
  (isTransitioning s = true -> next s = Some (displayedIndex s))
  /\ (isTransitioning s = false -> displayedIndex s = current s).
Proof.
  intros Hreach.
  destruct (reachable_well_formed s Hreach) as [_ Hrest].
  destruct (next s) as [n |].
  - destruct Hrest as (Ht & _ & Hd). split; [ congruence | congruence ].
  - destruct Hrest as [Ht Hd]. split; [ congruence | intros _; exact Hd ].
Qed.

(** C6. In a reachable state [displayedIndex] is in [0, N), and so is the
    value a further tick or completion call assigns to it. *)
Theorem displayed_in_range (s : Carousel) :
  reachable s ->
  0 <= displayedIndex s < images_length
  /\ 0 <= displayedIndex (tick s) < images_length
  /\ 0 <= displayedIndex (handleAnimationComplete s) < images_length.
Proof.
  intros Hreach.
  pose proof (reachable_well_formed s Hreach) as Hwf.
  split; [ | split ]; apply displayed_range_of_well_formed.
  - exact Hwf.
  - apply tick_well_formed, Hwf.
  - apply complete_well_formed, Hwf.
Qed.

Lemma transitioning_iff_next_witness :
  reachable (tick initial)
  /\ (isTransitioning (tick initial) = true <-> next (tick initial) <> None).
Proof.
  split; [ exact (reach_tick initial reach_initial) | ].
  exact (proj1 (transitioning_iff_next (tick initial)
                  (reach_tick initial reach_initial))).
Defined.

Lemma displayed_tracks_transition_witness :
  reachable (tick (handleAnimationComplete (tick initial)))
  /\ (isTransitioning (tick (handleAnimationComplete (tick initial))) = true ->
      next (tick (handleAnimationComplete (tick initial))) = Some 2).
Proof.
  assert (Hr : reachable (tick (handleAnimationComplete (tick initial)))).
  { apply reach_tick, reach_complete, reach_tick, reach_initial. }
  split; [ exact Hr | ].
  exact (proj1 (displayed_tracks_transition _ Hr)).
Defined.

Lemma displayed_in_range_witness :
  reachable (tick (tick initial))
  /\ 0 <= displayedIndex (tick (tick initial)) < 3.
Proof.
  assert (Hr : reachable (tick (tick initial))).
  { apply reach_tick, reach_tick, reach_initial. }
  split; [ exact Hr | ].
  exact (proj1 (displayed_in_range _ Hr)).
Defined.

(** The render reads [images[current]] (line 98) and
    [projectNames[displayedIndex]] (line 180); in a reachable state both
    look-ups hit an entry. *)
Lemma rendered_lookups_defined (s : Carousel) :
  reachable s ->
  is_Some (images !! Z.to_nat (current s))
  /\ is_Some (projectNames !! Z.to_nat (displayedIndex s)).
Proof.
  intros Hreach.
  destruct (displayed_range_of_well_formed s (reachable_well_formed s Hreach)) as [Hd1 Hd2].
  destruct (reachable_well_formed s Hreach) as [[Hc1 Hc2] _].
  rewrite images_length_eq in *.
  split; apply lookup_lt_is_Some; unfold images, projectNames; cbn [length]; lia.
Qed.

(** ** The completion handler alone *)

(** C7. The completion handler is idempotent on every state: after one call
    [next] is [None] whenever the call did anything, so a second call
    changes no cell. *)
Theorem complete_idempotent (s : Carousel) :
  handleAnimationComplete (handleAnimationComplete s) = handleAnimationComplete s.
Proof.
  destruct (next s) as [n |] eqn:Hn.
  - rewrite (complete_some s n Hn). reflexivity.
  - rewrite (complete_none s Hn). exact (complete_none s Hn).
Qed.

(** ** Hover handlers *)

(** C10. A hover event changes no carousel cell: [current], [next],
    [isTransitioning], [displayedIndex] and [direction] are as before, and
    the new state is the old one with at most [hoveredNav] and [hoveredMe]
    replaced. *)
Theorem hover_frame (h : Hover) (s : Carousel) :
  current (hover h s) = current s
  /\ next (hover h s) = next s
  /\ isTransitioning (hover h s) = isTransitioning s
  /\ displayedIndex (hover h s) = displayedIndex s
  /\ direction (hover h s) = direction s
  /\ hover h s =
     setHoveredMe (hoveredMe (hover h s))
       (setHoveredNav (hoveredNav (hover h s)) s).
Proof.
  destruct h, s; repeat split.
Qed.

Lemma hover_well_formed (h : Hover) (s : Carousel) :
  well_formed s -> well_formed (hover h s).
Proof. intros Hwf. destruct h; exact Hwf. Qed.

(** * Properties of the timer's life cycle *)

Module LifecycleFacts.
Import Lifecycle.

(** ** Renders keep the interval table in step with the cells *)

Lemma mount_consistent : consistent mount.
Proof.
  unfold consistent, mount, effect, setInterval. cbn.
  rewrite insert_empty. repeat split. lia.
Qed.

Lemma render_cells (s' : Carousel) (w : World) : cells (render s' w) = s'.
Proof.
  unfold render, run_cleanup.
  destruct (current s' =? current (cells w)); [ reflexivity | ].
  cbn. destruct (cleanup w); reflexivity.
Qed.

Lemma render_mounted (s' : Carousel) (w : World) :
  mounted (render s' w) = mounted w.
Proof.
  unfold render, run_cleanup.
  destruct (current s' =? current (cells w)); [ reflexivity | ].
  cbn. destruct (cleanup w); reflexivity.
Qed.

(** A render that keeps [current] leaves the timer alone. *)
Lemma render_same_current (s' : Carousel) (w : World) :
  current s' = current (cells w) ->
  intervals (render s' w) = intervals w /\ cleanup (render s' w) = cleanup w.
Proof.
  intros Heq. unfold render.
  rewrite (proj2 (Z.eqb_eq _ _) Heq). split; reflexivity.
Qed.

(** A render that changes [current] clears the armed interval and arms a
    fresh one that closes over the new [current]. *)
Lemma render_new_current (s' : Carousel) (w : World) (timer : nat) :
  cleanup w = Some timer ->
  intervals w = {[ timer := current (cells w) ]} ->
  current s' <> current (cells w) ->
  cleanup (render s' w) = Some (next_handle w)
  /\ intervals (render s' w) = {[ next_handle w := current s' ]}
  /\ next_handle (render s' w) = S (next_handle w).
Proof.
  intros Hcl Hint Hne. unfold render.
  rewrite (proj2 (Z.eqb_neq _ _) Hne).
  unfold run_cleanup. cbn [cleanup]. rewrite Hcl.
  unfold effect, setInterval, clearInterval. cbn.
  rewrite Hint, delete_singleton_eq, insert_empty. repeat split.
Qed.

Lemma render_consistent (s' : Carousel) (w : World) :
  consistent w -> mounted w = true -> consistent (render s' w).
Proof.
  intros Hw Hm. unfold consistent in Hw.
  destruct (cleanup w) as [timer |] eqn:Hcl.
  - destruct Hw as (Hint & Hlt & _).
    destruct (Z.eq_dec (current s') (current (cells w))) as [Heq | Hne].
    + destruct (render_same_current s' w Heq) as [Hi Hc].
      unfold consistent.
      rewrite Hc, Hcl, Hi, render_cells, render_mounted, Heq.
      unfold render. rewrite (proj2 (Z.eqb_eq _ _) Heq). cbn.
      repeat split; assumption.
    + destruct (render_new_current s' w timer Hcl Hint Hne) as (Hc & Hi & Hn).
      unfold consistent.
      rewrite Hc, Hi, Hn, render_cells, render_mounted. repeat split; [ lia | assumption ].
  - destruct Hw as [_ Hf]. congruence.
Qed.

(** A consistent world has a live interval only while mounted, and that
    interval closed over the [current] of the latest render. *)
Lemma consistent_lookup (w : World) (timer : nat) (cur : Z) :
  consistent w -> intervals w !! timer = Some cur ->
  mounted w = true /\ cleanup w = Some timer /\ cur = current (cells w).
Proof.
  unfold consistent. intros Hw Hl.
  destruct (cleanup w) as [t |].
  - destruct Hw as (Hint & _ & Hm). rewrite Hint in Hl.
    apply lookup_singleton_Some in Hl as [-> <-]. repeat split. exact Hm.
  - destruct Hw as [Hint _]. rewrite Hint, lookup_empty in Hl. discriminate.
Qed.

Lemma unmount_consistent (w : World) : consistent w -> consistent (unmount w).
Proof.
  unfold consistent, unmount, run_cleanup. intros Hw.
  destruct (cleanup w) as [timer |] eqn:Hcl; cbn; rewrite ?Hcl.
  - destruct Hw as (Hint & _ & _). rewrite Hint, delete_singleton_eq. split; reflexivity.
  - destruct Hw as [Hint _]. split; [ exact Hint | reflexivity ].
Qed.

Lemma step_consistent (e : Event) (w : World) :
  consistent w -> consistent (step e w).
Proof.
  intros Hw. destruct e as [timer | | h |]; cbn [step].
  - destruct (intervals w !! timer) as [cur |] eqn:Hl; [ | exact Hw ].
    destruct (consistent_lookup w timer cur Hw Hl) as (Hm & _ & _).
    apply render_consistent; assumption.
  - destruct (mounted w) eqn:Hm; [ | exact Hw ].
    apply render_consistent; assumption.
  - destruct (mounted w) eqn:Hm; [ | exact Hw ].
    apply render_consistent; assumption.
  - destruct (mounted w); [ | exact Hw ].
    apply unmount_consistent, Hw.
Qed.

Lemma run_consistent (es : list Event) (w : World) :
  consistent w -> consistent (run es w).
Proof.
  revert w. induction es as [| e es IH]; intros w Hw; cbn [run].
  - exact Hw.
  - apply IH, step_consistent, Hw.
Qed.

Lemma run_app (es es' : list Event) (w : World) :
  run (es ++ es') w = run es' (run es w).
Proof.
  revert w. induction es as [| e es IH]; intros w; cbn [run app].
  - reflexivity.
  - apply IH.
Qed.

(** The interval never fires a stale closure: whenever an interval is live
    its callback is the tick of the current cells. *)
Lemma timer_never_stale (es : list Event) (timer : nat) (cur : Z) :
  intervals (run es mount) !! timer = Some cur ->
  step (Fire timer) (run es mount)
  = render (tick (cells (run es mount))) (run es mount).
Proof.
  intros Hl. cbn [step]. rewrite Hl.
  destruct (consistent_lookup _ timer cur
              (run_consistent es mount mount_consistent) Hl) as (_ & _ & ->).
  reflexivity.
Qed.

(** Once torn down a consistent world no longer reacts to anything. *)
Lemma step_after_teardown (e : Event) (w : World) :
  consistent w -> mounted w = false -> step e w = w.
Proof.
  intros Hw Hm. destruct e as [timer | | h |]; cbn [step]; rewrite ?Hm; try reflexivity.
  destruct (intervals w !! timer) as [cur |] eqn:Hl; [ | reflexivity ].
  destruct (consistent_lookup w timer cur Hw Hl) as (Hm' & _). congruence.
Qed.

Lemma run_after_teardown (es : list Event) (w : World) :
  consistent w -> mounted w = false -> run es w = w.
Proof.
  intros Hw Hm. induction es as [| e es IH]; cbn [run].
  - reflexivity.
  - rewrite (step_after_teardown e w Hw Hm). exact IH.
Qed.

Lemma torn_down_no_interval (w : World) :
  consistent w -> mounted w = false -> intervals w = ∅.
Proof.
  unfold consistent. intros Hw Hm. destruct (cleanup w).
  - destruct Hw as (_ & _ & Hm'). congruence.
  - exact (proj1 Hw).
Qed.

Lemma unmount_cells (w : World) : cells (unmount w) = cells w.
Proof. unfold unmount, run_cleanup. destruct (cleanup w); reflexivity. Qed.

Lemma step_unmount_mounted (w : World) : mounted (step Unmount w) = false.
Proof. cbn [step]. destruct (mounted w) eqn:Hm; [ reflexivity | exact Hm ]. Qed.

(** Every step is a render of a mounted view or leaves the cells alone. *)
Lemma step_cases (e : Event) (w : World) :
  consistent w ->
  (exists s', step e w = render s' w /\ mounted w = true)
  \/ cells (step e w) = cells w.
Proof.
  intros Hw. destruct e as [timer | | h |]; cbn [step].
  - destruct (intervals w !! timer) as [cur |] eqn:Hl; [ | now right ].
    destruct (consistent_lookup w timer cur Hw Hl) as (Hm & _ & _).
    left. eexists. split; [ reflexivity | exact Hm ].
  - destruct (mounted w); [ | now right ].
    left. eexists. split; reflexivity.
  - destruct (mounted w); [ | now right ].
    left. eexists. split; reflexivity.
  - right. destruct (mounted w); [ apply unmount_cells | reflexivity ].
Qed.

(** The cells of every reachable world, hover events included, have the
    shape of [well_formed]. *)
Lemma step_well_formed (e : Event) (w : World) :
  consistent w -> well_formed (cells w) -> well_formed (cells (step e w)).
Proof.
  intros Hw Hwf. destruct e as [timer | | h |]; cbn [step].
  - destruct (intervals w !! timer) as [cur |] eqn:Hl; [ | exact Hwf ].
    destruct (consistent_lookup w timer cur Hw Hl) as (_ & _ & ->).
    rewrite render_cells. apply (tick_well_formed _ Hwf).
  - destruct (mounted w); [ | exact Hwf ].
    rewrite render_cells. apply complete_well_formed, Hwf.
  - destruct (mounted w); [ | exact Hwf ].
    rewrite render_cells. apply hover_well_formed, Hwf.
  - destruct (mounted w); [ | exact Hwf ].
    rewrite unmount_cells. exact Hwf.
Qed.

Lemma run_well_formed (es : list Event) :
  well_formed (cells (run es mount)).
Proof.
  assert (Hgen : forall w, consistent w -> well_formed (cells w) ->
                           well_formed (cells (run es w))).
  { induction es as [| e es IH]; intros w Hw Hwf; cbn [run].
    - exact Hwf.
    - apply IH; [ apply step_consistent, Hw | apply step_well_formed; assumption ]. }
  apply Hgen; [ exact mount_consistent | exact initial_well_formed ].
Qed.

Example teardown_mid_transition :
  isTransitioning (cells (run [Fire 1%nat] mount)) = true
  /\ intervals (run [Fire 1%nat; Unmount] mount) !! 1%nat = None
  /\ cells (run [Fire 1%nat; Unmount; Fire 1%nat; Complete] mount)
     = cells (run [Fire 1%nat] mount).
Proof. repeat split. Qed.

Example rearmed_after_commit :
  intervals (run [Fire 1%nat] mount) !! 1%nat = Some 0
  /\ intervals (run [Fire 1%nat; Complete] mount) !! 1%nat = None
  /\ intervals (run [Fire 1%nat; Complete] mount) !! 2%nat = Some 1.
Proof. repeat split. Qed.

(** C8. Teardown, from any reachable world (mid-transition included), runs
    the clean-up, which clears the interval: no interval is live afterwards,
    the teardown itself changes no cell, and whatever timer, animation or
    pointer event is delivered later, every cell stays as it was and no
    interval comes back. *)
Theorem teardown_inert (es es' : list Event) :
  intervals (step Unmount (run es mount)) = ∅
  /\ cells (step Unmount (run es mount)) = cells (run es mount)
  /\ cells (run es' (step Unmount (run es mount)))
     = cells (step Unmount (run es mount))
  /\ intervals (run es' (step Unmount (run es mount))) = ∅.
Proof.
  pose proof (run_consistent es mount mount_consistent) as Hw.
  pose proof (step_consistent Unmount _ Hw) as Hw'.
  pose proof (step_unmount_mounted (run es mount)) as Hm.
  pose proof (torn_down_no_interval _ Hw' Hm) as Hint.
  rewrite (run_after_teardown es' _ Hw' Hm).
  repeat split; try assumption.
  cbn [step]. destruct (mounted (run es mount)); [ apply unmount_cells | reflexivity ].
Qed.

(** C9. In every reachable world exactly one interval is live while the
    component is mounted and none once it is torn down; and a step that
    changes [current] clears the interval that was armed and arms a new one
    under another handle, closed over the new [current]. *)
Theorem one_interval_rearmed (es : list Event) (e : Event) :
  size (intervals (run es mount)) = (if mounted (run es mount) then 1 else 0)%nat
  /\ (current (cells (step e (run es mount))) <> current (cells (run es mount)) ->
      exists old new : nat,
        cleanup (run es mount) = Some old
        /\ intervals (run es mount) = {[ old := current (cells (run es mount)) ]}
        /\ old <> new
        /\ cleanup (step e (run es mount)) = Some new
        /\ intervals (step e (run es mount))
           = {[ new := current (cells (step e (run es mount))) ]}).
Proof.
  pose proof (run_consistent es mount mount_consistent) as Hw.
  set (w := run es mount) in *. split.
  - unfold consistent in Hw. destruct (cleanup w).
    + destruct Hw as (-> & _ & ->). apply map_size_singleton.
    + destruct Hw as (-> & ->). apply map_size_empty.
  - intros Hne. destruct (step_cases e w Hw) as [(s' & Hstep & Hm) | Hsame].
    + rewrite Hstep in *. rewrite render_cells in *.
      unfold consistent in Hw. destruct (cleanup w) as [old |] eqn:Hcl.
      * destruct Hw as (Hint & Hlt & _).
        destruct (render_new_current s' w old Hcl Hint Hne) as (Hc & Hi & _).
        exists old, (next_handle w). repeat split; try assumption. lia.
      * destruct Hw as [_ Hf]. congruence.
    + rewrite Hsame in Hne. now contradiction Hne.
Qed.

Lemma one_interval_rearmed_witness :
  current (cells (step Complete (run [Fire 1%nat] mount)))
    <> current (cells (run [Fire 1%nat] mount))
  /\ exists old new : nat,
       cleanup (run [Fire 1%nat] mount) = Some old
       /\ intervals (run [Fire 1%nat] mount)
          = {[ old := current (cells (run [Fire 1%nat] mount)) ]}
       /\ old <> new
       /\ cleanup (step Complete (run [Fire 1%nat] mount)) = Some new
       /\ intervals (step Complete (run [Fire 1%nat] mount))
          = {[ new := current (cells (step Complete (run [Fire 1%nat] mount))) ]}.
Proof.
  assert (Hne : current (cells (step Complete (run [Fire 1%nat] mount)))
                <> current (cells (run [Fire 1%nat] mount))).
  { vm_compute. discriminate. }
  split; [ exact Hne | ].
  exact (proj2 (one_interval_rearmed [Fire 1%nat] Complete) Hne).
Defined.

End LifecycleFacts.

(** * Further properties of the state machine *)

Lemma tick_idem (s : Carousel) : tick (tick s) = tick s.
Proof. reflexivity. Qed.

Lemma iter_tick (j : nat) (s : Carousel) : Nat.iter (S j) tick s = tick s.
Proof.
  induction j as [| j IH].
  - reflexivity.
  - change (Nat.iter (S (S j)) tick s) with (tick (Nat.iter (S j) tick s)).
    rewrite IH. apply tick_idem.
Qed.

(** X1. Ticks that arrive while a transition is still running are absorbed:
    any number of ticks in a row leaves the state one tick leaves, so the
    completion that follows commits the same slide as after a single tick. *)
Theorem overlapping_ticks_absorbed (j : nat) (s : Carousel) :
  Nat.iter (S j) tick s = tick s
  /\ handleAnimationComplete (Nat.iter (S j) tick s) = round s.
Proof.
  split.
  - apply iter_tick.
  - rewrite iter_tick. reflexivity.
Qed.

Lemma current_after_rounds (s : Carousel) (k : nat) :
  0 <= current s ->
  current (rounds (S k) s) = (current s + Z.of_nat (S k)) mod images_length.
Proof.
  intros Hc. induction k as [| k IH].
  - cbn [rounds]. rewrite round_cells. cbn [current].
    rewrite js_rem_mod by lia. reflexivity.
  - change (rounds (S (S k)) s) with (round (rounds (S k) s)).
    rewrite round_cells. cbn [current]. rewrite IH.
    rewrite js_rem_mod.
    + rewrite images_length_eq, Z.add_mod_idemp_l by lia. f_equal. lia.
    + pose proof (Z.mod_pos_bound (current s + Z.of_nat (S k)) images_length) as Hb.
      rewrite images_length_eq in *. lia.
Qed.

(** X2. From any state whose [current] is non-negative (not only the
    initial one, and whatever the other cells hold), after [k + 1] rounds
    [current] is [(current + k + 1) mod N]. *)
Theorem rounds_from_any_slide (s : Carousel) (k : nat) :
  0 <= current s ->
  current (rounds (S k) s) = (current s + Z.of_nat (S k)) mod images_length.
Proof. exact (current_after_rounds s k). Qed.

Lemma rounds_from_any_slide_witness :
  0 <= current (tick (round initial))
  /\ current (rounds 4 (tick (round initial))) = 2.
Proof.
  split; [ discriminate | ].
  exact (rounds_from_any_slide (tick (round initial)) 3 ltac:(discriminate)).
Defined.

Lemma reachable_forward (s : Carousel) : reachable s -> direction s = 1.
Proof.
  induction 1 as [| s _ IH | s _ IH].
  - reflexivity.
  - reflexivity.
  - destruct (next s) as [n |] eqn:Hn.
    + rewrite (complete_some s n Hn). exact IH.
    + rewrite (complete_none s Hn). exact IH.
Qed.

(** X3. The backward branch of [enterVariants.initial] is never taken: in
    every reachable state [direction] is 1, so an entering layer always
    starts at [x = 100%] (from the right), never at [-100%]. *)
Theorem enters_from_the_right (s : Carousel) :
  reachable s ->
  direction s = 1
  /\ forall layer, enteringLayer s = Some layer ->
       custom layer = 1 /\ initialVariant layer = ("100%"%string, 2).
Proof.
  intros Hreach. pose proof (reachable_forward s Hreach) as Hd.
  split; [ exact Hd | ].
  intros layer. unfold enteringLayer.
  destruct (isTransitioning s); [ | discriminate ].
  destruct (next s) as [n |]; [ | discriminate ].
  intros [= <-]. cbn [custom initialVariant]. rewrite Hd. split; reflexivity.
Qed.

Lemma enters_from_the_right_witness :
  reachable (tick initial)
  /\ (initialVariant <$> enteringLayer (tick initial)) = Some ("100%"%string, 2).
Proof.
  split; [ exact (reach_tick initial reach_initial) | ].
  destruct (enteringLayer (tick initial)) as [layer |] eqn:Hl; [ | discriminate Hl ].
  cbn [fmap option_fmap option_map]. f_equal.
  exact (proj2 (proj2 (enters_from_the_right (tick initial)
                         (reach_tick initial reach_initial)) layer Hl)).
Defined.

(** X4. Hover handlers commute with both carousel callbacks: a mouse event
    delivered before or after a tick, or before or after a completion,
    leads to the same state. *)
Theorem hover_commutes (h : Hover) (s : Carousel) :
  hover h (tick s) = tick (hover h s)
  /\ hover h (handleAnimationComplete s) = handleAnimationComplete (hover h s).
Proof.
  split.
  - destruct h; reflexivity.
  - unfold handleAnimationComplete.
    replace (next (hover h s)) with (next s) by (destruct h; reflexivity).
    destruct (next s); destruct h; reflexivity.
Qed.

(** * Properties of what is rendered *)

Lemma slide_cases (c : Z) : 0 <= c < images_length -> c = 0 \/ c = 1 \/ c = 2.
Proof. rewrite images_length_eq. lia. Qed.

Lemma indicators_of_displayed (s : Carousel) (d : Z) :
  displayedIndex s = d ->
  indicators s =
  imap (fun idx _ => (indicatorClassName (Z.of_nat idx) d,
                      indicatorLabel (Z.of_nat idx))) images.
Proof. intros <-. reflexivity. Qed.

Lemma indicator_class_highlighted (idx d : Z) :
  indicatorClassName idx d = indicatorHighlighted <-> idx = d.
Proof.
  unfold indicatorClassName, indicatorHighlighted.
  destruct (Z.eqb_spec idx d) as [Heq | Hne]; cbn; split; intros H;
    try reflexivity; try assumption; try discriminate H.
  contradiction.
Qed.

Lemma indicator_class_cases (idx d : Z) :
  indicatorClassName idx d
  = if bool_decide (idx = d) then indicatorHighlighted
    else "text-lg font-bold transition-all duration-300 text-white opacity-50"%string.
Proof.
  unfold indicatorClassName.
  destruct (Z.eqb_spec idx d) as [Heq | Hne].
  - rewrite bool_decide_eq_true_2 by exact Heq. reflexivity.
  - rewrite bool_decide_eq_false_2 by exact Hne. reflexivity.
Qed.

Lemma indicators_unfold (s : Carousel) :
  indicators s =
  [ (indicatorClassName 0 (displayedIndex s), indicatorLabel 0);
    (indicatorClassName 1 (displayedIndex s), indicatorLabel 1);
    (indicatorClassName 2 (displayedIndex s), indicatorLabel 2) ].
Proof. reflexivity. Qed.

(** X5. The number of highlighted indicators is one when [displayedIndex]
    is in [0, N) and zero otherwise; in a reachable state exactly one
    indicator is highlighted, the one at position [displayedIndex], and it
    carries that slide's number. *)
Theorem one_indicator_highlighted (s : Carousel) :
  count_class indicatorHighlighted fst (indicators s)
  = (if bool_decide (0 <= displayedIndex s < images_length) then 1%nat else 0%nat)
  /\ (reachable s ->
      count_class indicatorHighlighted fst (indicators s) = 1%nat
      /\ indicators s !! Z.to_nat (displayedIndex s)
         = Some (indicatorHighlighted, indicatorLabel (displayedIndex s))).
Proof.
  assert (Hcount : count_class indicatorHighlighted fst (indicators s)
    = (if bool_decide (0 <= displayedIndex s < images_length) then 1%nat else 0%nat)).
  { unfold count_class. rewrite indicators_unfold.
    rewrite images_length_eq, !indicator_class_cases.
    destruct (bool_decide_reflect (0 = displayedIndex s));
      destruct (bool_decide_reflect (1 = displayedIndex s));
      destruct (bool_decide_reflect (2 = displayedIndex s));
      case_bool_decide; try lia; reflexivity. }
  split; [ exact Hcount | ].
  intros Hreach.
  pose proof (displayed_range_of_well_formed s (reachable_well_formed s Hreach)) as Hd.
  split.
  - rewrite Hcount. rewrite bool_decide_eq_true_2 by exact Hd. reflexivity.
  - destruct (slide_cases _ Hd) as [H0 | [H1 | H2]].
    + rewrite (indicators_of_displayed s 0 H0), H0. reflexivity.
    + rewrite (indicators_of_displayed s 1 H1), H1. reflexivity.
    + rewrite (indicators_of_displayed s 2 H2), H2. reflexivity.
Qed.

Lemma one_indicator_highlighted_witness :
  reachable (tick initial)
  /\ (snd <$> indicators (tick initial) !! 1%nat) = Some "02"%string.
Proof.
  split; [ exact (reach_tick initial reach_initial) | ].
  exact (f_equal (fmap snd)
           (proj2 (proj2 (one_indicator_highlighted (tick initial))
                     (reach_tick initial reach_initial)))).
Defined.

(** Array look-ups with a slide index hit an entry. *)
Lemma images_index_defined (i : Z) :
  0 <= i < images_length -> is_Some (js_index images i).
Proof.
  intros Hi. destruct (slide_cases i Hi) as [-> | [-> | ->]]; eexists; reflexivity.
Qed.

Lemma projectNames_index_defined (i : Z) :
  0 <= i < images_length -> is_Some (js_index projectNames i).
Proof.
  intros Hi. destruct (slide_cases i Hi) as [-> | [-> | ->]]; eexists; reflexivity.
Qed.

(** Outside the array the look-up is [undefined]. *)
Lemma js_index_out_of_range {A : Type} (arr : list A) (i : Z) :
  i < 0 \/ Z.of_nat (length arr) <= i -> js_index arr i = None.
Proof.
  intros Hi. unfold js_index. destruct (Z.ltb_spec i 0) as [Hneg | Hpos].
  - reflexivity.
  - apply lookup_ge_None. lia.
Qed.

(** What a well-formed state with a pending transition looks like. *)
Lemma entering_layer_inv (s : Carousel) (layer : EnteringLayer) :
  enteringLayer s = Some layer ->
  exists n, next s = Some n /\ isTransitioning s = true
            /\ key layer = n /\ enteringImage layer = heroImage n.
Proof.
  unfold enteringLayer. intros Hl.
  destruct (isTransitioning s); [ | discriminate ].
  destruct (next s) as [n |]; [ | discriminate ].
  injection Hl as <-. exists n. repeat split.
Qed.

(** X6. Nothing rendered is [undefined]: in every reachable state the
    static image has a source, a project name is shown, and an entering
    layer, when there is one, has a source as well. *)
Theorem rendered_entries_defined (s : Carousel) :
  reachable s ->
  is_Some (src (staticImage s))
  /\ is_Some (projectName s)
  /\ forall layer, enteringLayer s = Some layer ->
       is_Some (src (enteringImage layer)).
Proof.
  intros Hreach. pose proof (reachable_well_formed s Hreach) as Hwf.
  pose proof (displayed_range_of_well_formed s Hwf) as Hd.
  destruct Hwf as [Hc Hrest]. split; [ | split ].
  - apply images_index_defined, Hc.
  - apply projectNames_index_defined, Hd.
  - intros layer Hl.
    destruct (entering_layer_inv s layer Hl) as (n & Hn & _ & _ & ->).
    rewrite Hn in Hrest. destruct Hrest as (_ & -> & _).
    apply images_index_defined, successor_in_range.
Qed.

Lemma rendered_entries_defined_witness :
  reachable (round initial)
  /\ is_Some (src (staticImage (round initial)))
  /\ is_Some (projectName (round initial)).
Proof.
  assert (Hr : reachable (round initial)).
  { apply reach_complete, reach_tick, reach_initial. }
  pose proof (rendered_entries_defined (round initial) Hr) as H.
  split; [ exact Hr | ].
  split; [ exact (proj1 H) | exact (proj1 (proj2 H)) ].
Defined.

(** X7. In a reachable state the entering layer shows another slide than
    the static layer: its key is [displayedIndex], its source and alt text
    differ from the static image's, and the project name on screen is the
    entering slide's. *)
Theorem entering_slide_is_new (s : Carousel) (layer : EnteringLayer) :
  reachable s ->
  enteringLayer s = Some layer ->
  key layer = displayedIndex s
  /\ src (enteringImage layer) <> src (staticImage s)
  /\ alt (enteringImage layer) <> alt (staticImage s)
  /\ projectName s = js_index projectNames (key layer).
Proof.
  intros Hreach Hl.
  destruct (reachable_well_formed s Hreach) as [Hc Hrest].
  destruct (entering_layer_inv s layer Hl) as (n & Hn & _ & Hk & Himg).
  rewrite Hn in Hrest. destruct Hrest as (_ & Hnext & Hd).
  rewrite Himg, Hk. unfold staticImage, projectName. rewrite Hd.
  split; [ reflexivity | ].
  split; [ | split; [ | reflexivity ] ]; subst n;
    destruct (slide_cases _ Hc) as [-> | [-> | ->]]; vm_compute; discriminate.
Qed.

Lemma entering_slide_is_new_witness :
  reachable (tick initial)
  /\ (key <$> enteringLayer (tick initial)) = Some 1.
Proof.
  split; [ exact (reach_tick initial reach_initial) | ].
  destruct (enteringLayer (tick initial)) as [layer |] eqn:Hl; [ | discriminate Hl ].
  cbn [fmap option_fmap option_map]. f_equal.
  exact (proj1 (entering_slide_is_new (tick initial) layer
                  (reach_tick initial reach_initial) Hl)).
Defined.

Lemma navDots_unfold (s : Carousel) :
  navDots s =
  [ ("Overview"%string, navDotClassName s 0);
    ("Projects"%string, navDotClassName s 1);
    ("Categories"%string, navDotClassName s 2);
    ("Motion"%string, navDotClassName s 3) ].
Proof. reflexivity. Qed.

Lemma nav_dot_class_cases (s : Carousel) (idx : Z) :
  navDotClassName s idx
  = if bool_decide (hoveredNav s = Some idx) then navDotVisible
    else "h-2 w-2 rounded-full mr-6 transition-all duration-200 opacity-0"%string.
Proof.
  unfold navDotClassName, isHoveredNav.
  destruct (hoveredNav s) as [h |].
  - destruct (Z.eqb_spec h idx) as [-> | Hne].
    + rewrite bool_decide_eq_true_2 by reflexivity. reflexivity.
    + rewrite bool_decide_eq_false_2 by congruence. reflexivity.
  - rewrite bool_decide_eq_false_2 by discriminate. reflexivity.
Qed.

Lemma nav_dot_count (s : Carousel) :
  count_class navDotVisible snd (navDots s)
  = match hoveredNav s with
    | Some h =>
        if bool_decide (0 <= h < Z.of_nat (length navItems)) then 1%nat else 0%nat
    | None => 0%nat
    end.
Proof.
  unfold count_class. rewrite navDots_unfold, !nav_dot_class_cases.
  change (Z.of_nat (length navItems)) with 4.
  destruct (hoveredNav s) as [h |].
  - destruct (bool_decide_reflect (Some h = Some 0)) as [H0 | H0];
      destruct (bool_decide_reflect (Some h = Some 1)) as [H1 | H1];
      destruct (bool_decide_reflect (Some h = Some 2)) as [H2 | H2];
      destruct (bool_decide_reflect (Some h = Some 3)) as [H3 | H3];
      case_bool_decide; try reflexivity; exfalso;
      repeat match goal with
             | H : Some ?a = Some ?b |- _ =>
                 assert (a = b) by congruence; clear H
             | H : Some ?a <> Some ?b |- _ =>
                 assert (a <> b) by congruence; clear H
             end;
      lia.
  - reflexivity.
Qed.

(** X8. At most one navigation dot is visible: one when [hoveredNav] holds
    an index of [navItems], none otherwise.  So entering item [idx] shows
    exactly its dot (replacing whichever was shown before), leaving any item
    hides all dots, and hovering the 'More about ME' label leaves the dots
    as they are. *)
Theorem nav_dot_follows_hover (s : Carousel) (idx : Z) :
  0 <= idx < Z.of_nat (length navItems) ->
  count_class navDotVisible snd (navDots (hover (NavEnter idx) s)) = 1%nat
  /\ (snd <$> navDots (hover (NavEnter idx) s) !! Z.to_nat idx) = Some navDotVisible
  /\ count_class navDotVisible snd (navDots (hover NavLeave s)) = 0%nat
  /\ navDots (hover MeEnter s) = navDots s
  /\ navDots (hover MeLeave s) = navDots s.
Proof.
  intros Hidx. split; [ | split; [ | split; [ | split ] ] ].
  - rewrite nav_dot_count. cbn [hover setHoveredNav hoveredNav].
    rewrite bool_decide_eq_true_2 by exact Hidx. reflexivity.
  - rewrite navDots_unfold, !nav_dot_class_cases.
    cbn [hover setHoveredNav hoveredNav].
    change (Z.of_nat (length navItems)) with 4 in Hidx.
    assert (Hc : idx = 0 \/ idx = 1 \/ idx = 2 \/ idx = 3) by lia.
    destruct Hc as [-> | [-> | [-> | ->]]]; reflexivity.
  - rewrite nav_dot_count. reflexivity.
  - reflexivity.
  - reflexivity.
Qed.

Lemma nav_dot_follows_hover_witness :
  0 <= 2 < Z.of_nat (length navItems)
  /\ count_class navDotVisible snd
       (navDots (hover (NavEnter 2) (hover (NavEnter 0) initial))) = 1%nat.
Proof.
  assert (Hidx : 0 <= 2 < Z.of_nat (length navItems)).
  { split; [ discriminate | reflexivity ]. }
  split; [ exact Hidx | ].
  exact (proj1 (nav_dot_follows_hover (hover (NavEnter 0) initial) 2 Hidx)).
Defined.

(** ** Indicator labels: [String(idx + 1).padStart(2, '0')] *)

Lemma pretty_N_go_length (x : N) (s : string) :
  (String.length s <= String.length (pretty_N_go x s))%nat.
Proof.
  revert s. induction (N.lt_wf_0 x) as [x _ IH]. intros s.
  destruct (decide (x = 0%N)) as [-> | Hx].
  - rewrite pretty_N_go_0. lia.
  - rewrite pretty_N_go_step by lia.
    etrans; [ | apply IH; apply N.div_lt; lia ]. cbn. lia.
Qed.

(** The numeral of a positive number does not start with the digit 0. *)
Lemma pretty_N_go_lead (x : N) (s : string) :
  (0 < x)%N ->
  exists c r, pretty_N_go x s = String c r /\ c <> "0"%char.
Proof.
  revert s. induction (N.lt_wf_0 x) as [x _ IH]. intros s Hx.
  rewrite pretty_N_go_step by exact Hx.
  destruct (decide (x `div` 10 = 0)%N) as [Hq | Hq].
  - rewrite Hq, pretty_N_go_0. eexists _, _. split; [ reflexivity | ].
    assert (Hlt : (x < 10)%N) by (apply N.div_small_iff in Hq; [ exact Hq | discriminate ]).
    rewrite N.mod_small by exact Hlt.
    assert (Hc : (x = 1 \/ x = 2 \/ x = 3 \/ x = 4 \/ x = 5 \/ x = 6
                  \/ x = 7 \/ x = 8 \/ x = 9)%N) by lia.
    destruct Hc as [-> | [-> | [-> | [-> | [-> | [-> | [-> | [-> | ->]]]]]]]];
      discriminate.
  - apply IH; [ apply N.div_lt; lia | apply N.neq_0_lt_0; exact Hq ].
Qed.

Lemma js_string_of_lead (n : Z) :
  0 < n -> exists c r, js_string_of n = String c r /\ c <> "0"%char.
Proof.
  intros Hn. destruct n as [| p | p]; try lia.
  unfold js_string_of, pretty, pretty_Z, pretty, pretty_positive, pretty, pretty_N.
  rewrite decide_False by discriminate.
  apply pretty_N_go_lead. lia.
Qed.

Lemma js_string_of_two_digits (n : Z) :
  10 <= n -> (2 <= String.length (js_string_of n))%nat.
Proof.
  intros Hn. destruct n as [| p | p]; try lia.
  unfold js_string_of, pretty, pretty_Z, pretty, pretty_positive, pretty, pretty_N.
  rewrite decide_False by discriminate.
  assert (Hq : (0 < N.pos p `div` 10)%N).
  { apply N.div_str_pos. lia. }
  rewrite pretty_N_go_step by lia.
  rewrite pretty_N_go_step by exact Hq.
  etrans; [ | apply pretty_N_go_length ]. cbn. lia.
Qed.

Lemma indicator_label_padded (idx : Z) :
  0 <= idx < 9 -> indicatorLabel idx = String "0" (js_string_of (idx + 1)).
Proof.
  intros Hi.
  assert (Hc : idx = 0 \/ idx = 1 \/ idx = 2 \/ idx = 3 \/ idx = 4 \/ idx = 5
               \/ idx = 6 \/ idx = 7 \/ idx = 8) by lia.
  destruct Hc as [-> | [-> | [-> | [-> | [-> | [-> | [-> | [-> | ->]]]]]]]];
    reflexivity.
Qed.

Lemma indicator_label_unpadded (idx : Z) :
  9 <= idx -> indicatorLabel idx = js_string_of (idx + 1).
Proof.
  intros Hi. unfold indicatorLabel, padStart.
  pose proof (js_string_of_two_digits (idx + 1) ltac:(lia)) as Hlen.
  destruct (Nat.leb_spec 2 (String.length (js_string_of (idx + 1)))) as [_ | Hlt].
  - reflexivity.
  - lia.
Qed.

(** X9. The text of indicator [idx] is the decimal numeral of [idx + 1],
    with one 0 in front for the first nine slides and as it is from the
    tenth on; it is never shorter than two characters. *)
Theorem indicator_label_shape (idx : Z) :
  0 <= idx ->
  indicatorLabel idx
  = (if idx <? 9 then String "0" (js_string_of (idx + 1))
     else js_string_of (idx + 1))
  /\ (2 <= String.length (indicatorLabel idx))%nat.
Proof.
  intros Hi. destruct (Z.ltb_spec idx 9) as [Hlt | Hge].
  - rewrite indicator_label_padded by lia. split; [ reflexivity | ].
    cbn [String.length]. destruct (js_string_of_lead (idx + 1) ltac:(lia))
      as (c & r & -> & _). cbn [String.length]. lia.
  - rewrite indicator_label_unpadded by lia. split; [ reflexivity | ].
    apply js_string_of_two_digits. lia.
Qed.

Lemma indicator_label_shape_witness :
  0 <= 11 /\ indicatorLabel 11 = "12"%string /\ indicatorLabel 2 = "03"%string.
Proof.
  split; [ discriminate | ].
  split.
  - exact (proj1 (indicator_label_shape 11 ltac:(discriminate))).
  - exact (proj1 (indicator_label_shape 2 ltac:(discriminate))).
Defined.

(** X10. Indicator texts tell slides apart: two indices with the same text
    are the same index, padded or not. *)
Theorem indicator_label_inj (i j : Z) :
  0 <= i -> 0 <= j -> indicatorLabel i = indicatorLabel j -> i = j.
Proof.
  intros Hi Hj Heq.
  assert (Hpad : forall a b, 0 <= a < 9 -> 9 <= b ->
                   indicatorLabel a <> indicatorLabel b).
  { intros a b Ha Hb Hab.
    rewrite indicator_label_padded, indicator_label_unpadded in Hab by lia.
    destruct (js_string_of_lead (b + 1) ltac:(lia)) as (c & r & Hs & Hc).
    rewrite Hs in Hab. injection Hab as Hc' _. congruence. }
  destruct (Z.lt_ge_cases i 9) as [Hi9 | Hi9];
    destruct (Z.lt_ge_cases j 9) as [Hj9 | Hj9].
  - rewrite !indicator_label_padded in Heq by lia.
    injection Heq as Heq. apply (inj pretty) in Heq. lia.
  - exfalso. apply (Hpad i j); [ lia | lia | exact Heq ].
  - exfalso. apply (Hpad j i); [ lia | lia | symmetry; exact Heq ].
  - rewrite !indicator_label_unpadded in Heq by lia.
    apply (inj pretty) in Heq. lia.
Qed.

Lemma indicator_label_inj_witness :
  0 <= 1 /\ indicatorLabel 1 = indicatorLabel (2 - 1) /\ 1 = 2 - 1.
Proof.
  split; [ discriminate | ].
  split; [ reflexivity | ].
  exact (indicator_label_inj 1 (2 - 1) ltac:(discriminate) ltac:(discriminate)
           eq_refl).
Defined.

(** * Further properties of the timer's life cycle *)

Module LifecycleMore.
Import Lifecycle LifecycleFacts.

(** X11. The interval callback never runs on a stale [current]: in every
    reachable world, firing the handle the pending clean-up holds renders
    the tick of the cells as they are now, and firing any other handle does
    nothing. *)
Theorem fire_runs_current_tick (es : list Event) (timer : nat) :
  step (Fire timer) (run es mount)
  = if bool_decide (cleanup (run es mount) = Some timer)
    then render (tick (cells (run es mount))) (run es mount)
    else run es mount.
Proof.
  pose proof (run_consistent es mount mount_consistent) as Hw.
  set (w := run es mount) in *. cbn [step].
  destruct (intervals w !! timer) as [cur |] eqn:Hl.
  - destruct (consistent_lookup w timer cur Hw Hl) as (_ & Hcl & ->).
    rewrite bool_decide_eq_true_2 by exact Hcl. reflexivity.
  - rewrite bool_decide_eq_false_2; [ reflexivity | ].
    intros Hcl. unfold consistent in Hw. rewrite Hcl in Hw.
    destruct Hw as (Hint & _). rewrite Hint, lookup_singleton_eq in Hl.
    discriminate.
Qed.

(** X12. The interval is re-armed by nothing but a change of [current]: a
    tick and a hover event always keep [current], and any step other than
    teardown that keeps [current] leaves the interval table, the pending
    clean-up and the handle counter untouched, so the running period is not
    restarted. *)
Theorem timer_kept_while_current_kept (es : list Event) (e : Event) :
  (forall timer h,
     current (cells (step (Fire timer) (run es mount)))
       = current (cells (run es mount))
     /\ current (cells (step (Pointer h) (run es mount)))
       = current (cells (run es mount)))
  /\ (e <> Unmount ->
      current (cells (step e (run es mount))) = current (cells (run es mount)) ->
      intervals (step e (run es mount)) = intervals (run es mount)
      /\ cleanup (step e (run es mount)) = cleanup (run es mount)
      /\ next_handle (step e (run es mount)) = next_handle (run es mount)).
Proof.
  set (w := run es mount).
  assert (Hkeep : forall s', current s' = current (cells w) ->
            intervals (render s' w) = intervals w
            /\ cleanup (render s' w) = cleanup w
            /\ next_handle (render s' w) = next_handle w).
  { intros s' Heq. unfold render.
    rewrite (proj2 (Z.eqb_eq _ _) Heq). repeat split. }
  split.
  - intros timer h. split; cbn [step].
    + destruct (intervals w !! timer); [ | reflexivity ].
      rewrite render_cells. reflexivity.
    + destruct (mounted w); [ | reflexivity ].
      rewrite render_cells. destruct h; reflexivity.
  - intros Hne Hcur. destruct e as [timer | | h |]; cbn [step] in *.
    + destruct (intervals w !! timer); [ | repeat split ].
      rewrite render_cells in Hcur. apply Hkeep, Hcur.
    + destruct (mounted w); [ | repeat split ].
      rewrite render_cells in Hcur. apply Hkeep, Hcur.
    + destruct (mounted w); [ | repeat split ].
      rewrite render_cells in Hcur. apply Hkeep, Hcur.
    + contradiction.
Qed.

Lemma timer_kept_while_current_kept_witness :
  Pointer MeEnter <> Unmount
  /\ intervals (step (Pointer MeEnter) (run [Fire 1%nat] mount))
     = intervals (run [Fire 1%nat] mount).
Proof.
  assert (Hne : Pointer MeEnter <> Unmount) by discriminate.
  split; [ exact Hne | ].
  exact (proj1 (proj2 (timer_kept_while_current_kept [Fire 1%nat] (Pointer MeEnter))
                  Hne eq_refl)).
Defined.

Lemma step_forward (e : Event) (w : World) :
  direction (cells w) = 1 -> direction (cells (step e w)) = 1.
Proof.
  intros Hd. destruct e as [timer | | h |]; cbn [step].
  - destruct (intervals w !! timer); [ | exact Hd ].
    rewrite render_cells. reflexivity.
  - destruct (mounted w); [ | exact Hd ].
    rewrite render_cells. unfold handleAnimationComplete.
    destruct (next (cells w)); exact Hd.
  - destruct (mounted w); [ | exact Hd ].
    rewrite render_cells. destruct h; exact Hd.
  - destruct (mounted w); [ | exact Hd ].
    rewrite unmount_cells. exact Hd.
Qed.

(** X13. The carousel invariant survives every interleaving of timer,
    completion, hover and teardown events: the cells of a reachable world
    satisfy [well_formed] ([current] is a slide index; either at rest with
    [displayedIndex = current], or in transition with
    [next = displayedIndex = (current + 1) mod N]) and [direction] is 1. *)
Theorem world_cells_invariant (es : list Event) :
  well_formed (cells (run es mount))
  /\ direction (cells (run es mount)) = 1.
Proof.
  assert (Hgen : forall w, consistent w -> well_formed (cells w) ->
                   direction (cells w) = 1 ->
                   well_formed (cells (run es w))
                   /\ direction (cells (run es w)) = 1).
  { induction es as [| e es IH]; intros w Hw Hwf Hd; cbn [run].
    - split; assumption.
    - apply IH.
      + apply step_consistent, Hw.
      + apply step_well_formed; assumption.
      + apply step_forward, Hd. }
  apply Hgen.
  - exact mount_consistent.
  - exact initial_well_formed.
  - reflexivity.
Qed.

Lemma rounds_shift (k : nat) (s : Carousel) :
  rounds k (round s) = round (rounds k s).
Proof.
  induction k as [| k IH]; cbn [rounds].
  - reflexivity.
  - rewrite IH. reflexivity.
Qed.

(** One round through the timer: the armed interval fires, the animation
    completes, and the interval is armed again under the next handle. *)
Lemma round_step (w : World) (timer : nat) :
  consistent w -> cleanup w = Some timer -> next_handle w = S timer ->
  0 <= current (cells w) < images_length ->
  consistent (step Complete (step (Fire timer) w))
  /\ cleanup (step Complete (step (Fire timer) w)) = Some (S timer)
  /\ next_handle (step Complete (step (Fire timer) w)) = S (S timer)
  /\ cells (step Complete (step (Fire timer) w)) = round (cells w).
Proof.
  intros Hw Hcl Hnh Hc.
  split; [ apply step_consistent, step_consistent, Hw | ].
  unfold consistent in Hw. rewrite Hcl in Hw. destruct Hw as (Hint & _ & Hm).
  assert (Hfire : step (Fire timer) w
                  = {| cells := tick (cells w); mounted := mounted w;
                       intervals := intervals w; next_handle := next_handle w;
                       cleanup := cleanup w |}).
  { assert (Hl : intervals w !! timer = Some (current (cells w))).
    { rewrite Hint. apply lookup_singleton_eq. }
    cbn [step]. rewrite Hl. unfold render.
    change (current (advance (current (cells w)) (cells w)))
      with (current (cells w)).
    rewrite Z.eqb_refl. reflexivity. }
  rewrite Hfire. cbn [step mounted]. rewrite Hm.
  assert (Hne : current (handleAnimationComplete (tick (cells w)))
                <> current (cells w)).
  { change (handleAnimationComplete (tick (cells w))) with (round (cells w)).
    rewrite round_cells. cbn [current]. rewrite js_rem_mod by lia.
    apply successor_differs, Hc. }
  match goal with
  | |- context [render ?s' ?w1] =>
      destruct (render_new_current s' w1 timer Hcl Hint Hne) as (Hc' & _ & Hn');
      rewrite Hc', Hn', render_cells
  end.
  cbn [next_handle]. rewrite Hnh. repeat split.
Qed.

(** X14. Driving the component through [k] rounds of its own timer (the
    armed interval fires, the animation completes) yields the cells of [k]
    plain rounds, so [current] is [k mod N]; every round re-arms the
    interval under the next handle, and the handle of an earlier round is no
    longer live. *)
Theorem scheduled_rounds (k : nat) :
  cells (run (schedule 1 k) mount) = rounds k initial
  /\ current (cells (run (schedule 1 k) mount)) = Z.of_nat k mod images_length
  /\ intervals (run (schedule 1 k) mount)
     = {[ S k := Z.of_nat k mod images_length ]}.
Proof.
  assert (Hgen : forall j w timer,
            consistent w -> cleanup w = Some timer -> next_handle w = S timer ->
            0 <= current (cells w) < images_length ->
            cells (run (schedule timer j) w) = rounds j (cells w)
            /\ cleanup (run (schedule timer j) w) = Some (timer + j)%nat
            /\ consistent (run (schedule timer j) w)).
  { induction j as [| j IH]; intros w timer Hw Hcl Hnh Hc.
    - cbn [schedule run rounds]. rewrite Nat.add_0_r. repeat split; assumption.
    - cbn [schedule run].
      destruct (round_step w timer Hw Hcl Hnh Hc) as (Hw' & Hcl' & Hnh' & Hcells).
      destruct (IH _ (S timer) Hw' Hcl' Hnh') as (Hr & Hc2 & Hw2).
      { rewrite Hcells, round_cells. cbn [current].
        rewrite js_rem_mod by lia. apply successor_in_range. }
      rewrite Hr, Hc2, Hcells, rounds_shift.
      split; [ reflexivity | ].
      split; [ f_equal; lia | exact Hw2 ]. }
  destruct (Hgen k mount 1%nat mount_consistent eq_refl eq_refl) as (Hr & Hcl & Hw).
  { cbn. rewrite images_length_eq. lia. }
  change (cells mount) with initial in Hr.
  change (1 + k)%nat with (S k) in Hcl.
  assert (Hcur : current (cells (run (schedule 1 k) mount))
                 = Z.of_nat k mod images_length).
  { rewrite Hr. destruct k as [| k].
    - reflexivity.
    - rewrite (current_after_rounds initial k) by (cbn; lia).
      reflexivity. }
  split; [ exact Hr | ]. split; [ exact Hcur | ].
  unfold consistent in Hw. rewrite Hcl in Hw. destruct Hw as (Hint & _).
  rewrite Hint, Hcur. reflexivity.
Qed.

End LifecycleMore.
